(** * OUIParameters.h: the inspector style constants of OmniUI (iPad)

    The header [Frameworks/OmniUI/iPad/OUIParameters.h] is a list of
    [#define] directives giving the colours, shadow geometry and corner radii
    of the inspector chrome.  This development embeds

    - the numeric model of the macro bodies: C [double] constants and
      constant expressions (binary64), stored into [CGFloat] struct fields;
    - the structs the compound literals build ([OUIGrayAlpha], [OSHSV],
      [OQLinearRGBA], [CGSize]);
    - every macro of the header, under its own name, and the header as the
      ordered list of its directives;
    - the style token registry ([define] / [lookup]) that the specification
      puts in front of the constants,

    and proves the properties of the constants and of the registry. *)

From Stdlib Require Import Floats ZArith.
From stdpp Require Import gmap strings list fin_maps.

Set Warnings "-inexact-float".

(** ** Numbers

    A macro body such as [213.0/360.0] is a C constant expression of type
    [double]: the literals are read to the nearest binary64 value and the
    division is the IEEE one.  Rocq's primitive floats are binary64 with the
    same reading of decimal literals, so the bodies are written as they are
    in the header, in [float_scope].

    [CGFloat] comes from CoreGraphics and is not declared in the header: it
    is [double] where [CGFLOAT_IS_DOUBLE] holds and [float] (binary32)
    otherwise, as on the 32-bit iPad.  The width is a parameter of the
    embedding. *)

Inductive CGFloatWidth := CGFloat32 | CGFloat64.

(** C's conversion from [double] to [float]: round to nearest, ties to even,
    with 24 bits of precision and infinities at exponent 128.  Zeros,
    infinities and NaN keep their class. *)
Definition double_to_float (x : float) : float :=
  match Prim2SF x with
  | S754_finite s m e => SF2Prim (binary_round 24 128 s m e)
  | _ => x
  end.

(** C's conversion of an [int] constant to [double]; every 32-bit integer
    converts exactly. *)
Definition int_to_double (n : Z) : float :=
  match n with
  | Z0 => 0
  | Zpos _ => of_uint63 (Uint63.of_Z n)
  | Zneg p => - of_uint63 (Uint63.of_Z (Zpos p))
  end.

(** The value a [CGFloat] field holds after being initialised with the
    [double] [x]. *)
Definition CGFloat_of (w : CGFloatWidth) (x : float) : float :=
  match w with
  | CGFloat64 => x
  | CGFloat32 => double_to_float x
  end.

(** ** Structs *)

(** [typedef struct { CGFloat v, a; } OUIGrayAlpha;] (line 12). *)
Record OUIGrayAlpha := { ga_v : float; ga_a : float }.

(** [OSHSV] and [OQLinearRGBA] are declared in [OmniQuartz/OQColor.h]; the
    header fills them positionally as hue, saturation, value, alpha and as
    red, green, blue, alpha. *)
Record OSHSV := { hsv_h : float; hsv_s : float; hsv_v : float; hsv_a : float }.
Record OQLinearRGBA := { rgba_r : float; rgba_g : float; rgba_b : float; rgba_a : float }.

(** [CGSize] of CoreGraphics. *)
Record CGSize := { width : float; height : float }.

(** The compound literals [(OUIGrayAlpha){v, a}], [(OSHSV){h, s, v, a}] and
    [(OQLinearRGBA){r, g, b, a}]: each initialiser is converted to the
    field's type. *)
Definition OUIGrayAlpha_lit (w : CGFloatWidth) (v a : float) : OUIGrayAlpha :=
  {| ga_v := CGFloat_of w v; ga_a := CGFloat_of w a |}.

Definition OSHSV_lit (w : CGFloatWidth) (h s v a : float) : OSHSV :=
  {| hsv_h := CGFloat_of w h; hsv_s := CGFloat_of w s;
     hsv_v := CGFloat_of w v; hsv_a := CGFloat_of w a |}.

Definition OQLinearRGBA_lit (w : CGFloatWidth) (r g b a : float) : OQLinearRGBA :=
  {| rgba_r := CGFloat_of w r; rgba_g := CGFloat_of w g;
     rgba_b := CGFloat_of w b; rgba_a := CGFloat_of w a |}.

(** [CGSizeMake(width, height)] of CoreGraphics takes two [CGFloat]s; the
    header passes the integer constants [0] and [1], which are converted. *)
Definition CGSizeMake (w : CGFloatWidth) (wd ht : Z) : CGSize :=
  {| width := CGFloat_of w (int_to_double wd);
     height := CGFloat_of w (int_to_double ht) |}.

(** ** The macros of the header, in source order *)

Module OUIParameters.

(** OUIInspectorWell (lines 17 to 23). *)
Definition kOUIInspectorWellBorderGradientStartGrayAlpha w := OUIGrayAlpha_lit w 0.31 1.0.
Definition kOUIInspectorWellBorderGradientEndGrayAlpha w := OUIGrayAlpha_lit w 0.48 1.0.
Definition kOUIInspectorWellInnerShadowGrayAlpha w := OUIGrayAlpha_lit w 0.0 0.4.
Definition kOUIInspectorWellInnerShadowBlur : Z := 3.
Definition kOUIInspectorWellInnerShadowOffset w := CGSizeMake w 0 1.
Definition kOUIInspectorWellOuterShadowGrayAlpha w := OUIGrayAlpha_lit w 1.0 0.5.
Definition kOUIInspectorWellCornerRadius : Z := 4.

(** OUIInspectorTextWell (lines 27 to 33). *)
Definition kOUIInspectorTextWellNormalGradientTopColor w :=
  OSHSV_lit w (213.0 / 360.0) 0.10 1.00 1.0.
Definition kOUIInspectorTextWellNormalGradientBottomColor w :=
  OSHSV_lit w (210.0 / 360.0) 0.02 1.00 1.0.
Definition kOUIInspectorTextWellHighlightedGradientTopColor w :=
  OSHSV_lit w (213.0 / 360.0) 0.08 0.58 1.0.
Definition kOUIInspectorTextWellHighlightedGradientBottomColor w :=
  OSHSV_lit w (210.0 / 360.0) 0.05 0.63 1.0.

Definition kOUIInspectorTextWellTextColor w :=
  OSHSV_lit w (213.0 / 360.0) 0.50 0.40 1.0.
Definition kOUIInspectorTextWellHighlightedTextColor w :=
  OSHSV_lit w (213.0 / 360.0) 0.50 0.30 1.0.

(** OUIInspectorBackgroundView (lines 36 and 37). *)
Definition kOUIInspectorBackgroundTopColor w :=
  OQLinearRGBA_lit w (228.0 / 255.0) (231.0 / 255.0) (235.0 / 255.0) 1.0.
Definition kOUIInspectorBackgroundBottomColor w :=
  OQLinearRGBA_lit w (197.0 / 255.0) (200.0 / 255.0) (207.0 / 255.0) 1.0.

(** OUIInspectorOptionWheel (lines 40 to 42): plain [double] constants. *)
Definition kOUIInspectorOptionWheelEdgeGradientGray : float := 0.53.
Definition kOUIInspectorOptionWheelMiddleGradientGray : float := 1.0.
Definition kOUIInspectorOptionWheelGradientPower : float := 2.5.

(** OUIDrawing (lines 45 and 46). *)
Definition kOUILightContentOnDarkBackgroundShadowGrayAlpha w := OUIGrayAlpha_lit w 0.0 0.5.
Definition kOUIDarkContentOnLightBackgroundShadowGrayAlpha w := OUIGrayAlpha_lit w 1.0 0.5.

(** OUIInspector (line 49). *)
Definition kOUIInspectorLabelTextColor w := OSHSV_lit w (212.0 / 360.0) 0.5 0.35 1.0.

(** OUIBarButtonItem (line 52). *)
Definition kOUIBarButtonItemDisabledTextGrayForColoredButtons : float := 0.9.

End OUIParameters.

(** ** Token values and the header as a list of directives *)

(** What a macro of the header expands to: one of the three colour structs,
    a size, an integer constant or a [double] constant. *)
Inductive value :=
| GrayAlpha (c : OUIGrayAlpha)
| HSV (c : OSHSV)
| LinearRGBA (c : OQLinearRGBA)
| Size (sz : CGSize)
| Int (n : Z)
| Double (x : float).

(** The specification drops the [kOUI] prefix of the macro names:
    its [InspectorWellCornerRadius] is [kOUIInspectorWellCornerRadius]. *)
Definition token (name : string) : string := "kOUI" +:+ name.

Module Header.
Import OUIParameters.

(** The [#define] lines 17 to 52, each as the macro's name and the value
    of its body, in source order. *)
Definition defines (w : CGFloatWidth) : list (string * value) :=
  [ ("kOUIInspectorWellBorderGradientStartGrayAlpha",
      GrayAlpha (kOUIInspectorWellBorderGradientStartGrayAlpha w));
    ("kOUIInspectorWellBorderGradientEndGrayAlpha",
      GrayAlpha (kOUIInspectorWellBorderGradientEndGrayAlpha w));
    ("kOUIInspectorWellInnerShadowGrayAlpha",
      GrayAlpha (kOUIInspectorWellInnerShadowGrayAlpha w));
    ("kOUIInspectorWellInnerShadowBlur", Int kOUIInspectorWellInnerShadowBlur);
    ("kOUIInspectorWellInnerShadowOffset", Size (kOUIInspectorWellInnerShadowOffset w));
    ("kOUIInspectorWellOuterShadowGrayAlpha",
      GrayAlpha (kOUIInspectorWellOuterShadowGrayAlpha w));
    ("kOUIInspectorWellCornerRadius", Int kOUIInspectorWellCornerRadius);
    ("kOUIInspectorTextWellNormalGradientTopColor",
      HSV (kOUIInspectorTextWellNormalGradientTopColor w));
    ("kOUIInspectorTextWellNormalGradientBottomColor",
      HSV (kOUIInspectorTextWellNormalGradientBottomColor w));
    ("kOUIInspectorTextWellHighlightedGradientTopColor",
      HSV (kOUIInspectorTextWellHighlightedGradientTopColor w));
    ("kOUIInspectorTextWellHighlightedGradientBottomColor",
      HSV (kOUIInspectorTextWellHighlightedGradientBottomColor w));
    ("kOUIInspectorTextWellTextColor", HSV (kOUIInspectorTextWellTextColor w));
    ("kOUIInspectorTextWellHighlightedTextColor",
      HSV (kOUIInspectorTextWellHighlightedTextColor w));
    ("kOUIInspectorBackgroundTopColor", LinearRGBA (kOUIInspectorBackgroundTopColor w));
    ("kOUIInspectorBackgroundBottomColor",
      LinearRGBA (kOUIInspectorBackgroundBottomColor w));
    ("kOUIInspectorOptionWheelEdgeGradientGray",
      Double kOUIInspectorOptionWheelEdgeGradientGray);
    ("kOUIInspectorOptionWheelMiddleGradientGray",
      Double kOUIInspectorOptionWheelMiddleGradientGray);
    ("kOUIInspectorOptionWheelGradientPower", Double kOUIInspectorOptionWheelGradientPower);
    ("kOUILightContentOnDarkBackgroundShadowGrayAlpha",
      GrayAlpha (kOUILightContentOnDarkBackgroundShadowGrayAlpha w));
    ("kOUIDarkContentOnLightBackgroundShadowGrayAlpha",
      GrayAlpha (kOUIDarkContentOnLightBackgroundShadowGrayAlpha w));
    ("kOUIInspectorLabelTextColor", HSV (kOUIInspectorLabelTextColor w));
    ("kOUIBarButtonItemDisabledTextGrayForColoredButtons",
      Double kOUIBarButtonItemDisabledTextGrayForColoredButtons) ].

(** The macro names, in source order. *)
Definition names (w : CGFloatWidth) : list string := (defines w).*1.

End Header.

(** The body a use of the macro [name] expands to.  No name is defined
    twice in the header (see [names_NoDup] below), so which of two
    directives of one name would win does not arise. *)
Fixpoint expansion (defs : list (string * value)) (name : string) : option value :=
  match defs with
  | [] => None
  | (k, v) :: rest => if String.eqb k name then Some v else expansion rest name
  end.

(** ** The specification's data model over the header's values *)

(** A ColorValue is a gray+alpha pair, an HSV+alpha tuple or a linear
    RGB+alpha tuple; [channels] lists its components and is empty for the
    values that are not colours. *)
Definition channels (x : value) : list float :=
  match x with
  | GrayAlpha c => [ga_v c; ga_a c]
  | HSV c => [hsv_h c; hsv_s c; hsv_v c; hsv_a c]
  | LinearRGBA c => [rgba_r c; rgba_g c; rgba_b c; rgba_a c]
  | Size _ | Int _ | Double _ => []
  end.

Definition is_ColorValue (x : value) : bool :=
  match x with
  | GrayAlpha _ | HSV _ | LinearRGBA _ => true
  | Size _ | Int _ | Double _ => false
  end.

(** [0 <= x <= 1] on floats; false for NaN. *)
Definition in_unit_interval (x : float) : bool :=
  PrimFloat.leb 0 x && PrimFloat.leb x 1.

(** A scalar token as a [double]: an integer constant is converted, as it
    is when passed where a [CGFloat] is expected. *)
Definition scalar (x : value) : option float :=
  match x with
  | Int n => Some (int_to_double n)
  | Double d => Some d
  | _ => None
  end.

(** Modelled from the spec: the ShadowSpec of the data model,
    [(color, blurRadius >= 0, offset (dx, dy))].  The header has no such
    struct; it spells a shadow as up to three macros sharing a prefix,
    [<prefix>GrayAlpha], [<prefix>Blur] and [<prefix>Offset], and every
    shadow colour it has is a gray+alpha pair. *)
Record ShadowSpec := {
  color : OUIGrayAlpha;
  blurRadius : float;
  offset : float * float
}.

(** Modelled from the spec: the ShadowSpec that the three macros of one
    prefix make up, when the directives [defs] have all three: the colour,
    the blur radius as a scalar and the size as the offset's (dx, dy). *)
Definition shadow_spec (defs : list (string * value)) (prefix : string) : option ShadowSpec :=
  match expansion defs (prefix +:+ "GrayAlpha"),
        expansion defs (prefix +:+ "Blur"),
        expansion defs (prefix +:+ "Offset") with
  | Some (GrayAlpha c), Some b, Some (Size sz) =>
      match scalar b with
      | Some r => Some {| color := c; blurRadius := r; offset := (width sz, height sz) |}
      | None => None
      end
  | _, _, _ => None
  end.

(** ** The style token registry *)

Module StyleTokenTable.

(** Modelled from the spec: the two error kinds of the registry, which the
    header, a list of independent macros, does not have.  [DuplicateKey] is
    raised at registration, [UnknownKey] at lookup. *)
Inductive Error := DuplicateKey | UnknownKey.

(** The registry maps keys (unique strings) to values. *)
Abbreviation table := (gmap string value).

(** Modelled from the spec: operations run against the table and either
    return or fail.  A failure is fatal and not recoverable: [mbind] runs
    nothing after it, and the table stays as it was when the failure was
    raised. *)
Definition M (A : Type) : Type := table → (Error + A) * table.

#[export] Instance M_ret : MRet M := λ A a t, (inr a, t).

#[export] Instance M_bind : MBind M := λ A B f m t,
  match m t with
  | (inr a, t') => f a t'
  | (inl e, t') => (inl e, t')
  end.

(** Modelled from the spec: [define(key, value)] registers a token at
    initialization time and fails if [key] is already registered. *)
Definition define (k : string) (v : value) : M unit :=
  λ t, match t !! k with
       | Some _ => (inl DuplicateKey, t)
       | None => (inr tt, <[k := v]> t)
       end.

(** Modelled from the spec: [lookup(key) -> value] returns the registered
    value and fails with [UnknownKey] if [key] was never registered. *)
Definition lookup (k : string) : M value :=
  λ t, match t !! k with
       | Some v => (inr v, t)
       | None => (inl UnknownKey, t)
       end.

(** Modelled from the spec: the one-way transition from uninitialized to
    ready, performed at process startup: every token is registered, in
    order, starting from the table it is given. *)
Fixpoint initialize (defs : list (string * value)) : M unit :=
  match defs with
  | [] => mret tt
  | (k, v) :: rest => define k v;; initialize rest
  end.

(** Modelled from the spec: what a consumer can do with the ready table.
    The public contract has no update and no delete, so a consumer is a
    program of lookups, each continuing with the value it got. *)
Inductive consumer (A : Type) : Type :=
| Return (a : A)
| Lookup (k : string) (cont : value → consumer A).
Arguments Return {A} a.
Arguments Lookup {A} k cont.

Fixpoint run {A} (p : consumer A) : M A :=
  match p with
  | Return a => mret a
  | Lookup k cont => v ← lookup k; run (cont v)
  end.

(** A process: startup from the empty table, then the consumer. *)
Definition process {A} (defs : list (string * value)) (p : consumer A) : M A :=
  initialize defs;; run p.

Definition result {A} (m : M A) (t : table) : Error + A := (m t).1.
Definition final {A} (m : M A) (t : table) : table := (m t).2.

(** The table the header's directives initialise. *)
Definition theme (w : CGFloatWidth) : table := final (initialize (Header.defines w)) ∅.

End StyleTokenTable.

(** ** Reading the macro names and the colour fields *)

(** The macro names follow a convention: the last word of a name says what
    the macro is.  [ends_with suffix s] holds when [s] ends in [suffix], and
    [contains sub s] when [sub] occurs in [s]. *)
Fixpoint ends_with (suffix s : string) : bool :=
  String.eqb s suffix ||
  match s with
  | EmptyString => false
  | String _ s' => ends_with suffix s'
  end.

Fixpoint contains (sub s : string) : bool :=
  String.prefix sub s ||
  match s with
  | EmptyString => false
  | String _ s' => contains sub s'
  end.

(** The C type of a macro's body. *)
Inductive ctype :=
| T_OUIGrayAlpha | T_OSHSV | T_OQLinearRGBA | T_CGSize | T_int | T_double.

#[export] Instance ctype_eq_dec : EqDecision ctype.
Proof. solve_decision. Defined.

Definition type_of (x : value) : ctype :=
  match x with
  | GrayAlpha _ => T_OUIGrayAlpha
  | HSV _ => T_OSHSV
  | LinearRGBA _ => T_OQLinearRGBA
  | Size _ => T_CGSize
  | Int _ => T_int
  | Double _ => T_double
  end.

(** The types the header gives to a macro of a given name: [...GrayAlpha]
    is an [OUIGrayAlpha], [...Color] one of the two colour structs of
    OmniQuartz, [...Offset] a [CGSize], [...Blur] and [...Radius] integer
    constants, and what is left ([...Gray], [...Power] and the bar button
    gray) a [double]. *)
Definition types_by_name (k : string) : list ctype :=
  if ends_with "GrayAlpha" k then [T_OUIGrayAlpha]
  else if ends_with "Color" k then [T_OSHSV; T_OQLinearRGBA]
  else if ends_with "Offset" k then [T_CGSize]
  else if ends_with "Blur" k || ends_with "Radius" k then [T_int]
  else [T_double].

(** The alpha field of a colour, and the gray level of a gray+alpha pair. *)
Definition alpha (x : value) : option float :=
  match x with
  | GrayAlpha c => Some (ga_a c)
  | HSV c => Some (hsv_a c)
  | LinearRGBA c => Some (rgba_a c)
  | Size _ | Int _ | Double _ => None
  end.

Definition gray (x : value) : option float :=
  match x with
  | GrayAlpha c => Some (ga_v c)
  | _ => None
  end.

(** Every [CGFloat] colour field of the header, in source order: the fields
    of the first colour macro, then those of the second, and so on. *)
Definition channel_values (w : CGFloatWidth) : list float :=
  flat_map (λ d, channels d.2) (Header.defines w).

(** A quotient literal such as [228.0/255.0] is written from an integer
    component: [scaled_rounds_to scale c n] holds when [c * scale] is less
    than one half away from [n], so that rounding it gives [n] back. *)
Definition scaled_rounds_to (scale c : float) (n : Z) : bool :=
  PrimFloat.ltb (abs (c * scale - int_to_double n)) 0.5.

(** * Properties *)

(** ** The numeric conversions on sample inputs *)

(** Narrowing rounds to nearest with ties to even, overflows to infinity and
    keeps what a [float] represents exactly. *)
Example double_to_float_samples :
  double_to_float 16777217 = 16777216%float ∧
  double_to_float 16777219 = 16777220%float ∧
  double_to_float 1e39 = infinity ∧
  double_to_float 0.5 = 0.5%float ∧
  double_to_float 0.31 = 0x1.3d70a4p-2%float.
Proof. repeat split; vm_compute; reflexivity. Qed.

Example int_to_double_samples :
  int_to_double 0 = 0%float ∧ int_to_double 4 = 4%float ∧ int_to_double (-3) = (-3)%float.
Proof. repeat split; vm_compute; reflexivity. Qed.

(** ** The directives as a lookup structure *)

Lemma expansion_elem_of defs k v :
  expansion defs k = Some v → (k, v) ∈ defs.
Proof.
  induction defs as [|[k0 v0] rest IH]; simpl; [done|].
  destruct (String.eqb_spec k0 k) as [->|Hne].
  - intros [= ->]. apply list_elem_of_here.
  - intros H. apply list_elem_of_further, IH, H.
Qed.

Lemma expansion_None defs k :
  expansion defs k = None ↔ k ∉ defs.*1.
Proof.
  induction defs as [|[k0 v0] rest IH]; simpl.
  - split; [intros _; apply not_elem_of_nil | done].
  - rewrite not_elem_of_cons. destruct (String.eqb_spec k0 k) as [->|Hne].
    + split; [done | intros [? _]; done].
    + rewrite IH. split; [intros ?; split; [congruence | done] | intros [_ ?]; done].
Qed.

Lemma elem_of_expansion defs k v :
  NoDup defs.*1 → (k, v) ∈ defs → expansion defs k = Some v.
Proof.
  induction defs as [|[k0 v0] rest IH]; simpl; intros Hnd Hin.
  - by apply elem_of_nil in Hin.
  - apply NoDup_cons in Hnd as [Hfresh Hnd].
    apply elem_of_cons in Hin as [[= -> ->]|Hin].
    + by rewrite String.eqb_refl.
    + destruct (String.eqb_spec k0 k) as [->|Hne]; [|by apply IH].
      exfalso. apply Hfresh. apply list_elem_of_fmap. by exists (k, v).
Qed.

(** The macro names of the header are pairwise distinct. *)
Lemma names_NoDup w : NoDup (Header.names w).
Proof. apply (bool_decide_unpack _). destruct w; vm_compute; exact I. Qed.

(** ** The registry operations *)

Module StyleTokenTableFacts.
Import StyleTokenTable.

Lemma define_fresh k v (t : table) :
  t !! k = None → define k v t = (inr tt, <[k := v]> t).
Proof. intros H. unfold define. by rewrite H. Qed.

Lemma define_registered k v (t : table) :
  is_Some (t !! k) → define k v t = (inl DuplicateKey, t).
Proof. intros [v' H]. unfold define. by rewrite H. Qed.

Lemma lookup_registered k v (t : table) :
  t !! k = Some v → lookup k t = (inr v, t).
Proof. intros H. unfold lookup. by rewrite H. Qed.

Lemma lookup_unregistered k (t : table) :
  t !! k = None → lookup k t = (inl UnknownKey, t).
Proof. intros H. unfold lookup. by rewrite H. Qed.

(** Unfolding one step of the startup loop. *)
Lemma initialize_cons k v rest (t : table) :
  initialize ((k, v) :: rest) t =
  match t !! k with
  | Some _ => (inl DuplicateKey, t)
  | None => initialize rest (<[k := v]> t)
  end.
Proof.
  simpl. unfold mbind, M_bind, define. by destruct (t !! k).
Qed.

(** Startup can only fail with [DuplicateKey]. *)
Lemma initialize_error defs (t0 t : table) e :
  initialize defs t0 = (inl e, t) → e = DuplicateKey.
Proof.
  revert t0. induction defs as [|[k v] rest IH]; intros t0.
  - by intros [=].
  - rewrite initialize_cons. destruct (t0 !! k); [by intros [= <-]|apply IH].
Qed.

(** After a successful startup the table holds the bindings it started
    with and, on top, what the directives expand to. *)
Lemma initialize_lookup defs (t0 t : table) :
  initialize defs t0 = (inr tt, t) →
  ∀ k, t !! k = match expansion defs k with
                | Some v => Some v
                | None => t0 !! k
                end
       ∧ (is_Some (t0 !! k) → expansion defs k = None).
Proof.
  revert t0. induction defs as [|[k0 v0] rest IH]; intros t0.
  - intros [= <-] k. by simpl.
  - rewrite initialize_cons. destruct (t0 !! k0) eqn:Hk0; [by intros [=]|].
    intros Hrest k. destruct (IH _ Hrest k) as [Hk Hfresh]. simpl.
    destruct (String.eqb_spec k0 k) as [->|Hne].
    + rewrite lookup_insert_eq in Hfresh. rewrite Hk, Hfresh by eauto.
      rewrite lookup_insert_eq. split; [done|]. rewrite Hk0. by intros [? [=]].
    + rewrite lookup_insert_ne in Hk, Hfresh by done. done.
Qed.

(** Startup succeeds exactly when no key repeats and none is taken yet. *)
Lemma initialize_succeeds defs (t0 : table) :
  NoDup defs.*1 → (∀ k, k ∈ defs.*1 → t0 !! k = None) →
  ∃ t, initialize defs t0 = (inr tt, t).
Proof.
  revert t0. induction defs as [|[k0 v0] rest IH]; intros t0 Hnd Hfree.
  - by eexists.
  - apply NoDup_cons in Hnd as [Hk0 Hnd].
    rewrite initialize_cons, (Hfree k0) by (simpl; apply list_elem_of_here).
    apply IH; [done|]. intros k Hk.
    rewrite lookup_insert_ne; [apply Hfree; simpl; by apply list_elem_of_further|].
    intros ->. done.
Qed.

Lemma initialize_success_inv defs (t0 t : table) :
  initialize defs t0 = (inr tt, t) →
  NoDup defs.*1 ∧ ∀ k, k ∈ defs.*1 → t0 !! k = None.
Proof.
  revert t0. induction defs as [|[k0 v0] rest IH]; intros t0.
  - intros _. split; [constructor | intros k Hk; by apply elem_of_nil in Hk].
  - rewrite initialize_cons. destruct (t0 !! k0) eqn:Hk0; [by intros [=]|].
    intros Hrest. destruct (IH _ Hrest) as [Hnd Hfree]. split.
    + simpl. apply NoDup_cons. split; [|done]. intros Hin.
      specialize (Hfree _ Hin). by rewrite lookup_insert_eq in Hfree.
    + intros k [->|Hin]%elem_of_cons; [done|].
      specialize (Hfree _ Hin).
      destruct (decide (k0 = k)) as [->|Hne];
        [by rewrite lookup_insert_eq in Hfree | by rewrite lookup_insert_ne in Hfree].
Qed.

(** A lookup, and so every consumer, hands the table back as it got it. *)
Lemma lookup_final k (t : table) : final (lookup k) t = t.
Proof. unfold final, lookup. by destruct (t !! k). Qed.

Lemma run_final {A} (p : consumer A) (t : table) : final (run p) t = t.
Proof.
  induction p as [a|k cont IH]; [done|].
  unfold final in *. simpl. unfold mbind, M_bind, lookup.
  destruct (t !! k); [apply IH | done].
Qed.

(** The header's directives initialise the registry without failure. *)
Lemma theme_initialized w :
  initialize (Header.defines w) ∅ = (inr tt, theme w).
Proof.
  destruct (initialize_succeeds (Header.defines w) ∅ (names_NoDup w)) as [t Ht].
  - intros k _. apply lookup_empty.
  - unfold theme, final. by rewrite Ht.
Qed.

(** The ready table maps each macro name to the macro's body. *)
Lemma theme_lookup w k : theme w !! k = expansion (Header.defines w) k.
Proof.
  destruct (initialize_lookup _ _ _ (theme_initialized w) k) as [-> _].
  rewrite lookup_empty. by destruct (expansion _ _).
Qed.

End StyleTokenTableFacts.

(** ** The claims *)

Import StyleTokenTable StyleTokenTableFacts OUIParameters.

(** C1 (define/lookup round trip): when startup has registered every
    directive of [defs] with [define] without failing, [lookup k] on the
    table it leaves succeeds for every registered pair [(k, v)] and returns
    exactly the [v] that was passed to [define], leaving the table as it
    is. *)
Theorem define_lookup_roundtrip defs (t0 t : table) k v :
  initialize defs t0 = (inr tt, t) →
  (k, v) ∈ defs →
  lookup k t = (inr v, t).
Proof.
  intros Hinit Hin.
  destruct (initialize_success_inv _ _ _ Hinit) as [Hnd _].
  destruct (initialize_lookup _ _ _ Hinit k) as [Hk _].
  rewrite (elem_of_expansion _ _ _ Hnd Hin) in Hk.
  by apply lookup_registered.
Qed.

(** The round trip over the whole token table of the header: startup from
    the empty table succeeds, and each of the 22 macros looks up to its
    own body. *)
Lemma define_lookup_roundtrip_header :
  initialize (Header.defines CGFloat32) ∅ = (inr tt, theme CGFloat32) ∧
  Forall (λ d, lookup d.1 (theme CGFloat32) = (inr d.2, theme CGFloat32))
         (Header.defines CGFloat32).
Proof.
  pose proof (theme_initialized CGFloat32) as H.
  split; [exact H|].
  apply Forall_forall. intros [k v] Hin.
  exact (define_lookup_roundtrip (Header.defines CGFloat32) ∅ _ k v H Hin).
Defined.

(** C2 (the two examples): the macro [kOUIInspectorWellCornerRadius] is the
    integer 4 and [kOUIInspectorWellBorderGradientStartGrayAlpha] is the
    pair with gray 0.31 and alpha 1.0, as stored in [CGFloat] fields; on the
    table the header initialises, [lookup] of the two tokens returns exactly
    these values. *)
Theorem lookup_examples w :
  kOUIInspectorWellCornerRadius = 4%Z ∧
  kOUIInspectorWellBorderGradientStartGrayAlpha w
    = {| ga_v := CGFloat_of w 0.31; ga_a := 1.0 |} ∧
  lookup (token "InspectorWellCornerRadius") (theme w) = (inr (Int 4), theme w) ∧
  lookup (token "InspectorWellBorderGradientStartGrayAlpha") (theme w)
    = (inr (GrayAlpha {| ga_v := CGFloat_of w 0.31; ga_a := 1.0 |}), theme w).
Proof.
  assert (CGFloat_of w 1.0 = 1.0%float) as Hone by (destruct w; vm_compute; reflexivity).
  split; [reflexivity|]. split.
  - unfold kOUIInspectorWellBorderGradientStartGrayAlpha, OUIGrayAlpha_lit.
    by rewrite Hone.
  - split; apply lookup_registered; rewrite theme_lookup.
    + reflexivity.
    + cbn. unfold kOUIInspectorWellBorderGradientStartGrayAlpha, OUIGrayAlpha_lit.
      by rewrite Hone.
Qed.

(** Every channel of every colour of the header, as one computed check. *)
Lemma channels_checked w :
  forallb (λ d, forallb in_unit_interval (channels d.2)) (Header.defines w) = true.
Proof. destruct w; vm_compute; reflexivity. Qed.

(** C3 (colour channels): for every token of the header's table whose value
    is a ColorValue (gray+alpha, HSV+alpha or linear RGB+alpha), every
    channel component lies in the closed interval from 0 to 1. *)
Theorem color_channels_in_unit_interval w k v c :
  (k, v) ∈ Header.defines w →
  is_ColorValue v = true →
  c ∈ channels v →
  in_unit_interval c = true.
Proof.
  intros Hin _ Hc.
  pose proof (proj1 (forallb_forall _ _) (channels_checked w) (k, v)
                (proj1 (list_elem_of_In _ _) Hin)) as Hv.
  apply (proj1 (forallb_forall _ _) Hv c). by apply list_elem_of_In.
Qed.

(** On the 32-bit target, the hue 213/360 of the text colour. *)
Lemma color_channels_in_unit_interval_text_hue :
  (token "InspectorTextWellTextColor", HSV (kOUIInspectorTextWellTextColor CGFloat32))
    ∈ Header.defines CGFloat32 ∧
  is_ColorValue (HSV (kOUIInspectorTextWellTextColor CGFloat32)) = true ∧
  CGFloat_of CGFloat32 (213.0 / 360.0)
    ∈ channels (HSV (kOUIInspectorTextWellTextColor CGFloat32)) ∧
  in_unit_interval (CGFloat_of CGFloat32 (213.0 / 360.0)) = true.
Proof.
  assert ((token "InspectorTextWellTextColor", HSV (kOUIInspectorTextWellTextColor CGFloat32))
            ∈ Header.defines CGFloat32) as Hin
    by (apply (list_elem_of_lookup_2 _ 11); reflexivity).
  assert (CGFloat_of CGFloat32 (213.0 / 360.0)
            ∈ channels (HSV (kOUIInspectorTextWellTextColor CGFloat32))) as Hc
    by (apply (list_elem_of_lookup_2 _ 0); reflexivity).
  split; [exact Hin|]. split; [reflexivity|]. split; [exact Hc|].
  exact (color_channels_in_unit_interval CGFloat32 _ _ _ Hin eq_refl Hc).
Defined.

(** C6 (unique keys): no macro name is defined twice in the header: its 22
    directives have pairwise distinct names, so any two distinct tokens of
    the table differ in their keys. *)
Theorem Header_names_NoDup w :
  NoDup (Header.names w) ∧
  length (Header.names w) = 22 ∧
  (∀ i j d1 d2,
     Header.defines w !! i = Some d1 → Header.defines w !! j = Some d2 →
     i ≠ j → d1.1 ≠ d2.1).
Proof.
  split; [apply names_NoDup | split; [reflexivity|]].
  intros i j d1 d2 Hi Hj Hij Heq. apply Hij.
  apply (NoDup_lookup _ _ _ d1.1 (names_NoDup w)); unfold Header.names;
    rewrite list_lookup_fmap; [by rewrite Hi | by rewrite Hj, Heq].
Qed.

(** C4 (duplicate keys): in every table state, [define k v] fails with
    [DuplicateKey] exactly when [k] is already registered and succeeds
    exactly when it is not; the failure leaves the table as it was and is
    fatal: whatever was to run after the [define] does not run. *)
Theorem define_DuplicateKey k v (t : table) :
  (is_Some (t !! k) ↔ result (define k v) t = inl DuplicateKey) ∧
  (t !! k = None ↔ result (define k v) t = inr tt) ∧
  (is_Some (t !! k) →
   final (define k v) t = t ∧
   ∀ A (rest : M A), (define k v;; rest) t = (inl DuplicateKey, t)).
Proof.
  unfold result, final, mbind, M_bind, define.
  destruct (t !! k) as [v'|] eqn:Hk; simpl.
  - split; [split; eauto|]. split; [split; intros [=]|]. by intros _.
  - split; [split; [by intros [? [=]] | intros [=]]|].
    split; [done|]. by intros [? [=]].
Qed.

(** Defining the corner radius a second time, on the table of the header,
    and going on to a lookup. *)
Lemma define_DuplicateKey_corner_radius :
  is_Some (theme CGFloat32 !! token "InspectorWellCornerRadius") ∧
  (define (token "InspectorWellCornerRadius") (Int 5);;
   lookup (token "InspectorWellCornerRadius")) (theme CGFloat32)
    = (inl DuplicateKey, theme CGFloat32).
Proof.
  assert (is_Some (theme CGFloat32 !! token "InspectorWellCornerRadius")) as H
    by (rewrite theme_lookup; by eexists).
  split; [exact H|].
  exact (proj2 (proj2 (proj2 (define_DuplicateKey _ (Int 5) _)) H) _ _).
Defined.

(** A startup whose directives name a key twice is a dead process: it
    ends in [DuplicateKey] whatever the consumer was going to do. *)
Lemma process_duplicate_fatal {A} defs (p : consumer A) :
  ¬ NoDup defs.*1 → result (process defs p) ∅ = inl DuplicateKey.
Proof.
  intros Hdup. unfold result, process, mbind, M_bind.
  destruct (initialize defs ∅) as [[e|[]] t'] eqn:Hinit.
  - by rewrite (initialize_error _ _ _ _ Hinit).
  - destruct Hdup. by destruct (initialize_success_inv _ _ _ Hinit).
Qed.

(** C5 (unknown keys): [lookup k] fails with [UnknownKey] exactly when [k]
    is not in the set of registered keys, returns a value exactly when it
    is, and has no other way to fail. *)
Theorem lookup_UnknownKey k (t : table) :
  (k ∉ dom t ↔ result (lookup k) t = inl UnknownKey) ∧
  (k ∈ dom t ↔ ∃ v, result (lookup k) t = inr v) ∧
  (∀ e, result (lookup k) t = inl e → e = UnknownKey).
Proof.
  rewrite elem_of_dom. unfold result, lookup.
  destruct (t !! k) as [v|] eqn:Hk; simpl.
  - split; [split; [intros []; eauto | intros [=]]|].
    split; [split; eauto | intros ? [=]].
  - split; [split; [done | by intros _ [? [=]]]|].
    split; [split; [by intros [? [=]] | by intros [? [=]]] | by intros ? [= <-]].
Qed.

(** The registered key set of the header's table is the set of its macro
    names, so the name of no macro is unknown and every other key is. *)
Lemma theme_keys w k : k ∈ dom (theme w) ↔ k ∈ Header.names w.
Proof.
  rewrite elem_of_dom, theme_lookup. unfold Header.names.
  destruct (expansion (Header.defines w) k) as [v|] eqn:Hk.
  - split; [intros _ | by eauto].
    apply list_elem_of_fmap. exists (k, v). split; [done|].
    by apply expansion_elem_of.
  - apply expansion_None in Hk. split; [by intros [? [=]] | done].
Qed.

(** A key that is no macro of the header. *)
Lemma lookup_UnknownKey_unregistered :
  (token "InspectorWellFillColor" ∉ dom (theme CGFloat32)) ∧
  result (lookup (token "InspectorWellFillColor")) (theme CGFloat32) = inl UnknownKey.
Proof.
  assert (token "InspectorWellFillColor" ∉ dom (theme CGFloat32)) as H.
  { rewrite theme_keys. apply (bool_decide_unpack _). vm_compute. exact I. }
  split; [exact H|].
  exact (proj1 (proj1 (lookup_UnknownKey _ _)) H).
Defined.

(** The table a process is left with is the one startup built, whatever
    the consumer looked up. *)
Lemma process_final {A} defs (p : consumer A) (t0 : table) :
  final (process defs p) t0 = final (initialize defs) t0.
Proof.
  unfold final, process, mbind, M_bind.
  destruct (initialize defs t0) as [[e|[]] t']; [done|]. apply run_final.
Qed.

(** C7 (determinism and idempotence of lookup): two lookups of one key in a
    row return the same value, or fail alike with [UnknownKey]; a lookup
    made after any other consumer activity returns what it would have
    returned before it; and two runs started from the same directives
    answer a lookup alike, whatever else their consumers did. *)
Theorem lookup_idempotent k (t : table) :
  run (Lookup k (λ v1, Lookup k (λ v2, Return (v1, v2)))) t
    = (match t !! k with
       | Some v => inr (v, v)
       | None => inl UnknownKey
       end, t) ∧
  (∀ A (p : consumer A), lookup k (final (run p) t) = lookup k t) ∧
  (∀ defs A B (p1 : consumer A) (p2 : consumer B),
     result (lookup k) (final (process defs p1) ∅)
       = result (lookup k) (final (process defs p2) ∅)).
Proof.
  split; [|split].
  - simpl. unfold mbind, M_bind, lookup. destruct (t !! k) eqn:Hk; [|done].
    by rewrite Hk.
  - intros A p. by rewrite run_final.
  - intros defs A B p1 p2. by rewrite !process_final.
Qed.

(** The same lookup before and after a consumer that fails half way. *)
Lemma lookup_idempotent_header :
  lookup (token "InspectorWellCornerRadius")
    (final (run (Lookup (token "InspectorWellFillColor") Return)) (theme CGFloat32))
  = lookup (token "InspectorWellCornerRadius") (theme CGFloat32).
Proof.
  exact (proj1 (proj2 (lookup_idempotent _ (theme CGFloat32))) _ _).
Defined.

(** C8 (the ready table is never changed): a lookup hands the table back
    unchanged, whether it succeeds or fails with [UnknownKey]; so does every
    program a consumer can write against the contract, which has lookups
    only; and [define], the one operation that writes, never replaces or
    removes a binding that is there. *)
Theorem ready_table_unchanged (t : table) :
  (∀ k, final (lookup k) t = t) ∧
  (∀ A (p : consumer A), final (run p) t = t) ∧
  (∀ k v k', is_Some (t !! k') → final (define k v) t !! k' = t !! k').
Proof.
  split; [|split].
  - intros k. apply lookup_final.
  - intros A p. apply run_final.
  - intros k v k' Hk'. unfold final, define.
    destruct (t !! k) eqn:Hk; [done|]. simpl.
    apply lookup_insert_ne. intros ->. rewrite Hk in Hk'. by destruct Hk'.
Qed.

(** Two lookups on the header's table, the second of an unknown key, and a
    [define] of a new key next to the corner radius. *)
Lemma ready_table_unchanged_header :
  final (run (Lookup (token "InspectorWellCornerRadius")
                (λ _, Lookup (token "InspectorWellFillColor") Return)))
        (theme CGFloat32) = theme CGFloat32 ∧
  final (define (token "InspectorWellFillColor") (Double 1.0)) (theme CGFloat32)
    !! token "InspectorWellCornerRadius" = Some (Int 4).
Proof.
  split.
  - exact (proj1 (proj2 (ready_table_unchanged (theme CGFloat32))) _ _).
  - rewrite (proj2 (proj2 (ready_table_unchanged (theme CGFloat32)))
               (token "InspectorWellFillColor") (Double 1.0)
               (token "InspectorWellCornerRadius"));
      rewrite theme_lookup; [reflexivity | by eexists].
Defined.

(** ** Shadows *)

Lemma string_app_cons a s1 s2 : String a s1 +:+ s2 = String a (s1 +:+ s2).
Proof. reflexivity. Qed.

Lemma string_length_app s1 s2 :
  String.length (s1 +:+ s2) = String.length s1 + String.length s2.
Proof.
  induction s1 as [|a s1 IH]; [done|].
  rewrite string_app_cons. simpl. by rewrite IH.
Qed.

(** A suffix can be cancelled: the prefix of a macro name is determined by
    the name and the suffix. *)
Lemma string_app_inj_r s p q : p +:+ s = q +:+ s → p = q.
Proof.
  revert q. induction p as [|a p IH]; intros [|b q] H; [done| | |].
  - apply (f_equal String.length) in H.
    rewrite !string_length_app in H. simpl in H. lia.
  - apply (f_equal String.length) in H.
    rewrite !string_length_app in H. simpl in H. lia.
  - rewrite !string_app_cons in H. injection H as -> H. f_equal. by apply IH.
Qed.

(** The header has one [CGSize] macro, the offset of the inner shadow. *)
Lemma Size_macro_unique w k sz :
  (k, Size sz) ∈ Header.defines w → k = "kOUIInspectorWellInnerShadowOffset".
Proof.
  intros H. apply list_elem_of_In in H. simpl in H.
  repeat (destruct H as [H|H]; [congruence|]). done.
Qed.

(** So the one shadow the header spells out in full is the inner shadow of
    the inspector well. *)
Lemma shadow_spec_prefix w prefix s :
  shadow_spec (Header.defines w) prefix = Some s →
  prefix = "kOUIInspectorWellInnerShadow".
Proof.
  unfold shadow_spec. intros H.
  destruct (expansion _ (prefix +:+ "GrayAlpha")) as [[]|]; try done.
  destruct (expansion _ (prefix +:+ "Blur")); try done.
  destruct (expansion _ (prefix +:+ "Offset")) as [[]|] eqn:Hoff; try done.
  apply expansion_elem_of, Size_macro_unique in Hoff.
  by apply (string_app_inj_r "Offset").
Qed.

(** C9 (shadows): every ShadowSpec the header's tokens make up has a
    nonnegative blur radius; there is one, the inner shadow of the inspector
    well, whose blur radius is 3 (macro [kOUIInspectorWellInnerShadowBlur])
    and whose offset is (dx, dy) = (0, 1)
    (macro [kOUIInspectorWellInnerShadowOffset]). *)
Theorem ShadowSpec_blur_nonneg w :
  (∀ prefix s, shadow_spec (Header.defines w) prefix = Some s →
     PrimFloat.leb 0 (blurRadius s) = true) ∧
  shadow_spec (Header.defines w) "kOUIInspectorWellInnerShadow"
    = Some {| color := kOUIInspectorWellInnerShadowGrayAlpha w;
              blurRadius := 3;
              offset := (0%float, 1%float) |} ∧
  kOUIInspectorWellInnerShadowBlur = 3%Z ∧
  kOUIInspectorWellInnerShadowOffset w = {| width := 0; height := 1 |}.
Proof.
  assert (shadow_spec (Header.defines w) "kOUIInspectorWellInnerShadow"
          = Some {| color := kOUIInspectorWellInnerShadowGrayAlpha w;
                    blurRadius := 3;
                    offset := (0%float, 1%float) |}) as Hinner
    by (destruct w; vm_compute; reflexivity).
  split; [|split; [exact Hinner | split; [reflexivity | by destruct w]]].
  intros prefix s H.
  rewrite (shadow_spec_prefix _ _ _ H), Hinner in H.
  injection H as <-. reflexivity.
Qed.

(** The inner shadow on the 32-bit target. *)
Lemma ShadowSpec_blur_nonneg_inner :
  shadow_spec (Header.defines CGFloat32) "kOUIInspectorWellInnerShadow"
    = Some {| color := kOUIInspectorWellInnerShadowGrayAlpha CGFloat32;
              blurRadius := 3;
              offset := (0%float, 1%float) |} ∧
  PrimFloat.leb 0 3 = true.
Proof.
  pose proof (proj1 (proj2 (ShadowSpec_blur_nonneg CGFloat32))) as H.
  split; [exact H|].
  exact (proj1 (ShadowSpec_blur_nonneg CGFloat32) _ _ H).
Defined.

(** ** The text well *)

(** C10 (highlighted is darker): in the inspector text well the highlighted
    gradient top and bottom colours have strictly smaller HSV value
    components than the normal ones (0.58 < 1.00 and 0.63 < 1.00), and the
    highlighted text colour has a strictly smaller value component than the
    normal text colour (0.30 < 0.40) while the two text colours have the
    same hue, saturation and alpha. *)
Theorem highlighted_darker w :
  (hsv_v (kOUIInspectorTextWellHighlightedGradientTopColor w) = CGFloat_of w 0.58 ∧
   hsv_v (kOUIInspectorTextWellNormalGradientTopColor w) = CGFloat_of w 1.00 ∧
   PrimFloat.ltb (hsv_v (kOUIInspectorTextWellHighlightedGradientTopColor w))
                 (hsv_v (kOUIInspectorTextWellNormalGradientTopColor w)) = true) ∧
  (hsv_v (kOUIInspectorTextWellHighlightedGradientBottomColor w) = CGFloat_of w 0.63 ∧
   hsv_v (kOUIInspectorTextWellNormalGradientBottomColor w) = CGFloat_of w 1.00 ∧
   PrimFloat.ltb (hsv_v (kOUIInspectorTextWellHighlightedGradientBottomColor w))
                 (hsv_v (kOUIInspectorTextWellNormalGradientBottomColor w)) = true) ∧
  (hsv_v (kOUIInspectorTextWellHighlightedTextColor w) = CGFloat_of w 0.30 ∧
   hsv_v (kOUIInspectorTextWellTextColor w) = CGFloat_of w 0.40 ∧
   PrimFloat.ltb (hsv_v (kOUIInspectorTextWellHighlightedTextColor w))
                 (hsv_v (kOUIInspectorTextWellTextColor w)) = true) ∧
  hsv_h (kOUIInspectorTextWellHighlightedTextColor w)
    = hsv_h (kOUIInspectorTextWellTextColor w) ∧
  hsv_s (kOUIInspectorTextWellHighlightedTextColor w)
    = hsv_s (kOUIInspectorTextWellTextColor w) ∧
  hsv_a (kOUIInspectorTextWellHighlightedTextColor w)
    = hsv_a (kOUIInspectorTextWellTextColor w).
Proof.
  repeat split; try reflexivity; destruct w; vm_compute; reflexivity.
Qed.

(** * Further properties of the header *)

(** ** Names *)

Lemma ends_with_cons suffix a s :
  ends_with suffix (String a s) = String.eqb (String a s) suffix || ends_with suffix s.
Proof. reflexivity. Qed.

Lemma ends_with_spec suffix s :
  ends_with suffix s = true ↔ ∃ p, s = p +:+ suffix.
Proof.
  induction s as [|a s IH].
  - change (ends_with suffix "") with (String.eqb "" suffix || false).
    rewrite orb_false_r, String.eqb_eq. split.
    + intros <-. by exists "".
    + intros [[|b p] H]; [done|]. by rewrite string_app_cons in H.
  - rewrite ends_with_cons, orb_true_iff, String.eqb_eq, IH. split.
    + intros [<-|[p ->]]; [by exists "" | by exists (String a p)].
    + intros [[|b p] H]; [by left|].
      rewrite string_app_cons in H. injection H as -> ->. right. by exists p.
Qed.

Lemma prefix_cons a sub b s :
  String.prefix (String a sub) (String b s)
  = if Ascii.ascii_dec a b then String.prefix sub s else false.
Proof. reflexivity. Qed.

Lemma prefix_spec sub s :
  String.prefix sub s = true ↔ ∃ q, s = sub +:+ q.
Proof.
  revert s. induction sub as [|a sub IH]; intros s.
  - split; [by exists s | intros _; by destruct s].
  - destruct s as [|b s].
    + split; [done | intros [q H]; by rewrite string_app_cons in H].
    + rewrite prefix_cons. destruct (Ascii.ascii_dec a b) as [->|Hne].
      * rewrite IH. split; intros [q H]; exists q.
        -- by rewrite string_app_cons, H.
        -- rewrite string_app_cons in H. by injection H.
      * split; [done|]. intros [q H]. rewrite string_app_cons in H. congruence.
Qed.

Lemma contains_cons sub a s :
  contains sub (String a s) = String.prefix sub (String a s) || contains sub s.
Proof. reflexivity. Qed.

Lemma contains_spec sub s :
  contains sub s = true ↔ ∃ p q, s = p +:+ sub +:+ q.
Proof.
  induction s as [|a s IH].
  - change (contains sub "") with (String.prefix sub "" || false).
    rewrite orb_false_r, prefix_spec. split.
    + intros [q H]. by exists "", q.
    + intros [[|b p] [q H]]; [by exists q | by rewrite string_app_cons in H].
  - rewrite contains_cons, orb_true_iff, IH, prefix_spec. split.
    + intros [[q H]|[p [q ->]]]; [by exists "", q | by exists (String a p), q].
    + intros [[|b p] [q H]]; [left; by exists q|].
      rewrite string_app_cons in H. injection H as -> ->. right. by exists p, q.
Qed.

(** From a computed check of the whole table to a statement about each of
    its directives. *)
Lemma Forall_forallb {A} (f : A → bool) (l : list A) :
  forallb f l = true → Forall (λ x, f x = true) l.
Proof.
  intros H. apply Forall_forall. intros x Hx.
  apply (proj1 (forallb_forall f l) H). by apply list_elem_of_In.
Qed.

(** Each directive of the table is checked in turn, by evaluation. *)
Ltac check_directives :=
  repeat (apply List.Forall_cons; [vm_compute; repeat split; eauto |]);
  apply List.Forall_nil.

(** X1 (names and types): the last word of a macro's name decides the C
    type of its body: [...GrayAlpha] is an [OUIGrayAlpha], [...Color] an
    [OSHSV] or an [OQLinearRGBA], [...Offset] a [CGSize], [...Blur] and
    [...Radius] integer constants, and every other macro a [double]. *)
Theorem macro_types_follow_names w :
  Forall (λ d, type_of d.2 ∈ types_by_name d.1) (Header.defines w).
Proof.
  eapply Forall_impl.
  - apply (Forall_forallb (λ d, bool_decide (type_of d.2 ∈ types_by_name d.1))).
    destruct w; vm_compute; reflexivity.
  - intros d H. by apply bool_decide_eq_true in H.
Qed.

(** X2 (the double constants): every plain [double] macro with [Gray] in
    its name is a gray level between 0 and 1; the one [double] macro that is
    not a gray is the gradient power, an exponent above 1. *)
Theorem double_constants_are_grays w :
  Forall (λ d, match d.2 with
               | Double x =>
                   if contains "Gray" d.1
                   then in_unit_interval x = true
                   else d.1 = "kOUIInspectorOptionWheelGradientPower" ∧
                        PrimFloat.ltb 1 x = true
               | _ => True
               end) (Header.defines w).
Proof. destruct w; check_directives. Qed.

(** X3 (opacity): a colour of the header is fully opaque, with alpha exactly
    1 in either [CGFloat] width, unless it is a shadow colour; a shadow
    colour is a gray+alpha pair that is pure black or pure white with an
    alpha strictly between 0 and 1. *)
Theorem colors_opaque_unless_shadow w :
  Forall (λ d, match alpha d.2 with
               | None => True
               | Some a =>
                   if contains "Shadow" d.1
                   then PrimFloat.ltb 0 a = true ∧ PrimFloat.ltb a 1 = true ∧
                        (gray d.2 = Some 0%float ∨ gray d.2 = Some 1%float)
                   else a = 1%float
               end) (Header.defines w).
Proof. destruct w; check_directives. Qed.

(** X4 (one hue family): every HSV colour of the header has its hue between
    210 and 213 degrees. *)
Theorem hues_between_210_and_213_degrees w :
  Forall (λ d, match d.2 with
               | HSV c =>
                   PrimFloat.leb (CGFloat_of w (210.0 / 360.0)) (hsv_h c) = true ∧
                   PrimFloat.leb (hsv_h c) (CGFloat_of w (213.0 / 360.0)) = true
               | _ => True
               end) (Header.defines w).
Proof. destruct w; check_directives. Qed.

(** ** The two widths of CGFloat *)

Lemma channel_values_zip i a a' :
  channel_values CGFloat64 !! i = Some a →
  channel_values CGFloat32 !! i = Some a' →
  (a, a') ∈ zip (channel_values CGFloat64) (channel_values CGFloat32).
Proof.
  intros H H'. apply (list_elem_of_lookup_2 _ i).
  by rewrite lookup_zip_with, H, H'.
Qed.

(** X5 (order across widths): storing the colour fields as [float] instead
    of [double] changes no comparison between any two of them: two fields
    compare as [float]s the way they compare as [double]s, so narrowing
    neither merges two distinct levels nor swaps them. *)
Theorem channel_order_width_independent i j a b a' b' :
  channel_values CGFloat64 !! i = Some a →
  channel_values CGFloat64 !! j = Some b →
  channel_values CGFloat32 !! i = Some a' →
  channel_values CGFloat32 !! j = Some b' →
  PrimFloat.compare a' b' = PrimFloat.compare a b.
Proof.
  intros Hi Hj Hi' Hj'.
  pose (same := λ c1 c2 : float_comparison,
          match c1, c2 with
          | FEq, FEq | FLt, FLt | FGt, FGt | FNotComparable, FNotComparable => true
          | _, _ => false
          end).
  assert (forallb (λ p, forallb (λ q,
            same (PrimFloat.compare p.2 q.2) (PrimFloat.compare p.1 q.1))
            (zip (channel_values CGFloat64) (channel_values CGFloat32)))
            (zip (channel_values CGFloat64) (channel_values CGFloat32)) = true) as Hall
    by (vm_compute; reflexivity).
  pose proof (proj1 (forallb_forall _ _) Hall (a, a')
                (proj1 (list_elem_of_In _ _) (channel_values_zip _ _ _ Hi Hi'))) as Ha.
  pose proof (proj1 (forallb_forall _ _) Ha (b, b')
                (proj1 (list_elem_of_In _ _) (channel_values_zip _ _ _ Hj Hj'))) as Hab.
  simpl in Hab. unfold same in Hab.
  by destruct (PrimFloat.compare a' b'), (PrimFloat.compare a b).
Qed.

(** The grays 0.31 and 0.48 of the border gradient, fields 0 and 2. *)
Lemma channel_order_width_independent_border :
  channel_values CGFloat64 !! 0 = Some 0.31%float ∧
  channel_values CGFloat64 !! 2 = Some 0.48%float ∧
  channel_values CGFloat32 !! 0 = Some (double_to_float 0.31) ∧
  channel_values CGFloat32 !! 2 = Some (double_to_float 0.48) ∧
  PrimFloat.compare (double_to_float 0.31) (double_to_float 0.48)
    = PrimFloat.compare 0.31 0.48.
Proof.
  split; [reflexivity|]. split; [reflexivity|].
  split; [reflexivity|]. split; [reflexivity|].
  exact (channel_order_width_independent 0 2 _ _ _ _ eq_refl eq_refl eq_refl eq_refl).
Defined.

(** X6 (error of narrowing): a colour field stored as [float] is within
    2^-25, half a unit in the last place of a [float] below 1, of the same
    field stored as [double]. *)
Theorem channel_narrowing_error i a a' :
  channel_values CGFloat64 !! i = Some a →
  channel_values CGFloat32 !! i = Some a' →
  PrimFloat.leb (abs (a' - a)) 0x1p-25 = true.
Proof.
  intros Hi Hi'.
  assert (forallb (λ p, PrimFloat.leb (abs (p.2 - p.1)) 0x1p-25)
            (zip (channel_values CGFloat64) (channel_values CGFloat32)) = true) as Hall
    by (vm_compute; reflexivity).
  exact (proj1 (forallb_forall _ _) Hall (a, a')
           (proj1 (list_elem_of_In _ _) (channel_values_zip _ _ _ Hi Hi'))).
Qed.

(** The hue 213/360 of the first text well colour, field 8. *)
Lemma channel_narrowing_error_hue :
  channel_values CGFloat64 !! 8 = Some (213.0 / 360.0)%float ∧
  channel_values CGFloat32 !! 8 = Some (double_to_float (213.0 / 360.0)) ∧
  PrimFloat.leb (abs (double_to_float (213.0 / 360.0) - 213.0 / 360.0)) 0x1p-25 = true.
Proof.
  split; [reflexivity|]. split; [reflexivity|].
  exact (channel_narrowing_error 8 _ _ eq_refl eq_refl).
Defined.

(** ** Gradients and quotient literals *)

(** X7 (direction of the gradients): the border gradient of the well runs
    from a darker start to a lighter end and the option wheel from a darker
    edge to a lighter middle; the background runs from a top that is lighter
    in each of red, green and blue to the bottom; the normal text well
    gradient keeps full value and only loses saturation from top to
    bottom. *)
Theorem gradient_directions w :
  PrimFloat.ltb (ga_v (kOUIInspectorWellBorderGradientStartGrayAlpha w))
                (ga_v (kOUIInspectorWellBorderGradientEndGrayAlpha w)) = true ∧
  PrimFloat.ltb kOUIInspectorOptionWheelEdgeGradientGray
                kOUIInspectorOptionWheelMiddleGradientGray = true ∧
  (PrimFloat.ltb (rgba_r (kOUIInspectorBackgroundBottomColor w))
                 (rgba_r (kOUIInspectorBackgroundTopColor w)) = true ∧
   PrimFloat.ltb (rgba_g (kOUIInspectorBackgroundBottomColor w))
                 (rgba_g (kOUIInspectorBackgroundTopColor w)) = true ∧
   PrimFloat.ltb (rgba_b (kOUIInspectorBackgroundBottomColor w))
                 (rgba_b (kOUIInspectorBackgroundTopColor w)) = true) ∧
  (hsv_v (kOUIInspectorTextWellNormalGradientTopColor w)
     = hsv_v (kOUIInspectorTextWellNormalGradientBottomColor w) ∧
   PrimFloat.ltb (hsv_s (kOUIInspectorTextWellNormalGradientBottomColor w))
                 (hsv_s (kOUIInspectorTextWellNormalGradientTopColor w)) = true).
Proof. destruct w; vm_compute; repeat split. Qed.

(** X8 (quotient literals): the background colours are written as byte
    values over 255, [n/255.0], and the hues as degrees, [d/360.0]; in either
    [CGFloat] width the stored field times 255, or times 360, rounds back to
    the integer the literal was written from. *)
Theorem quotient_literals_round_trip w :
  (scaled_rounds_to 255 (rgba_r (kOUIInspectorBackgroundTopColor w)) 228 = true ∧
   scaled_rounds_to 255 (rgba_g (kOUIInspectorBackgroundTopColor w)) 231 = true ∧
   scaled_rounds_to 255 (rgba_b (kOUIInspectorBackgroundTopColor w)) 235 = true) ∧
  (scaled_rounds_to 255 (rgba_r (kOUIInspectorBackgroundBottomColor w)) 197 = true ∧
   scaled_rounds_to 255 (rgba_g (kOUIInspectorBackgroundBottomColor w)) 200 = true ∧
   scaled_rounds_to 255 (rgba_b (kOUIInspectorBackgroundBottomColor w)) 207 = true) ∧
  (scaled_rounds_to 360 (hsv_h (kOUIInspectorTextWellNormalGradientTopColor w)) 213 = true ∧
   scaled_rounds_to 360 (hsv_h (kOUIInspectorTextWellNormalGradientBottomColor w)) 210 = true ∧
   scaled_rounds_to 360 (hsv_h (kOUIInspectorTextWellHighlightedGradientTopColor w)) 213 = true ∧
   scaled_rounds_to 360 (hsv_h (kOUIInspectorTextWellHighlightedGradientBottomColor w)) 210 = true ∧
   scaled_rounds_to 360 (hsv_h (kOUIInspectorTextWellTextColor w)) 213 = true ∧
   scaled_rounds_to 360 (hsv_h (kOUIInspectorTextWellHighlightedTextColor w)) 213 = true ∧
   scaled_rounds_to 360 (hsv_h (kOUIInspectorLabelTextColor w)) 212 = true).
Proof. destruct w; vm_compute; repeat split. Qed.

(** ** Macro expansion *)

(** X9 (each name has one body): a use of a macro name expands to a body
    exactly when the header has a directive of that name with that body;
    no directive is shadowed by an earlier one, and a name the header does
    not define expands to nothing. *)
Theorem expansion_iff w k v :
  (expansion (Header.defines w) k = Some v ↔ (k, v) ∈ Header.defines w) ∧
  (expansion (Header.defines w) k = None ↔ k ∉ Header.names w).
Proof.
  split; [split|apply expansion_None].
  - apply expansion_elem_of.
  - apply elem_of_expansion, names_NoDup.
Qed.
